(** * Virtual column evaluator: [solution.py]

    A shallow embedding of [is_valid_label], [parse_role] and
    [add_virtual_column], together with the fragments of Python's [re]
    engine and of pandas that the three functions call. *)

From Stdlib Require Import ZArith NArith String Ascii List Lia ZifyBool.
From Corelib Require Import PrimFloat Uint63Axioms.
From stdpp Require Import base option list gmap.

Local Open Scope N_scope.

(** ** Python strings *)

(** A Python [str] is a sequence of Unicode code points. *)
Definition str := list N.

(** The [str] written as an ASCII literal. *)
Fixpoint pystr (s : string) : str :=
  match s with
  | EmptyString => []
  | String a s' => N_of_ascii a :: pystr s'
  end.

(** [s[a:b]] for [a <= b <= len(s)]. *)
Definition slice (s : str) (a b : nat) : str := take (b - a) (drop a s).

(** ** The fragment of [re] used by the two patterns *)

Module Sre.

(** Members of a character set, as [sre_parse] lists them under [IN]. *)
Inductive set_item :=
| Literal (c : N)
| Range (lo hi : N)
| Category_space.

Definition charset := list set_item.

(** [\s] of a [str] pattern: the code points for which [str.isspace]
    holds. *)
Definition is_unicode_space (c : N) : bool :=
  ((9 <=? c) && (c <=? 13)) || ((28 <=? c) && (c <=? 32))
  || (c =? 133) || (c =? 160) || (c =? 5760)
  || ((8192 <=? c) && (c <=? 8202))
  || (c =? 8232) || (c =? 8233) || (c =? 8239) || (c =? 8287)
  || (c =? 12288).

Definition item_matches (it : set_item) (c : N) : bool :=
  match it with
  | Literal l => c =? l
  | Range lo hi => (lo <=? c) && (c <=? hi)
  | Category_space => is_unicode_space c
  end.

Definition in_set (cs : charset) (c : N) : bool :=
  existsb (fun it => item_matches it c) cs.

Inductive at_code := At_beginning | At_end.

(** Compiled pattern code.  Groups are compiled to a pair of [Mark]s
    (group [g], counted from 0, owns marks [2g] and [2g+1]); the only
    repetitions in the two patterns are greedy, unbounded and over a
    single character set. *)
Inductive opcode :=
| At (a : at_code)
| In (cs : charset)
| Max_repeat (lo : nat) (cs : charset)
| Mark (i : nat).

Definition marks := gmap nat nat.

(** [$]: at the end of the string, or just before a final newline. *)
Definition at_end (rest : str) : bool :=
  match rest with
  | [] => true
  | [c] => c =? 10
  | _ => false
  end.

(** Greedy repetition with backtracking: take one more character when
    the set allows it, fall back to the continuation [k] when the longer
    attempt fails, provided at least [lo] characters were taken. *)
Fixpoint max_repeat (cs : charset) (k : nat -> str -> option marks)
    (lo ptr : nat) (rest : str) {struct rest} : option marks :=
  let stop := match lo with O => k ptr rest | S _ => None end in
  match rest with
  | c :: rest' =>
      if in_set cs c then
        match max_repeat cs k (pred lo) (S ptr) rest' with
        | Some m => Some m
        | None => stop
        end
      else stop
  | [] => stop
  end.

(** The matching engine on a whole-string match: the code must be
    exhausted exactly at the end of the string. *)
Fixpoint sre_match (code : list opcode) (ptr : nat) (rest : str)
    (m : marks) {struct code} : option marks :=
  match code with
  | [] => match rest with [] => Some m | _ :: _ => None end
  | At At_beginning :: code' =>
      match ptr with O => sre_match code' ptr rest m | S _ => None end
  | At At_end :: code' =>
      if at_end rest then sre_match code' ptr rest m else None
  | In cs :: code' =>
      match rest with
      | c :: rest' =>
          if in_set cs c then sre_match code' (S ptr) rest' m else None
      | [] => None
      end
  | Max_repeat lo cs :: code' =>
      max_repeat cs (fun p r => sre_match code' p r m) lo ptr rest
  | Mark i :: code' => sre_match code' ptr rest (<[i := ptr]> m)
  end.

(** A compiled pattern and a match object. *)
Record pattern := { code : list opcode; ngroups : nat }.

Record match_object := { string : str; regs : marks }.

Definition fullmatch (p : pattern) (s : str) : option match_object :=
  match sre_match (code p) 0%nat s ∅ with
  | Some m => Some {| string := s; regs := m |}
  | None => None
  end.

(** [Match.group(g+1)]: [None] for a group that took no part. *)
Definition group (mo : match_object) (g : nat) : option str :=
  match regs mo !! (2 * g)%nat, regs mo !! (2 * g + 1)%nat with
  | Some a, Some b => Some (slice (string mo) a b)
  | _, _ => None
  end.

(** [Match.groups()] of a pattern with [n] groups. *)
Definition groups (n : nat) (mo : match_object) : list (option str) :=
  map (group mo) (seq 0 n).

End Sre.

Import Sre.

(** ** [solution.py] *)

(** [[A-Za-z_]] *)
Definition label_set : charset := [Range 65 90; Range 97 122; Literal 95].

(** [[+\-*/]] *)
Definition operator_set : charset :=
  [Literal 43; Literal 45; Literal 42; Literal 47].

(** [\s] *)
Definition space_set : charset := [Category_space].

(** [LABEL_REGEX = re.compile(r"^[A-Za-z_]+$")] *)
Definition LABEL_REGEX : pattern :=
  {| code := [At At_beginning; Max_repeat 1 label_set; At At_end];
     ngroups := 0 |}.

(** [bool(LABEL_REGEX.fullmatch(label))]: a match object is truthy,
    [None] is not. *)
Definition is_valid_label (label : str) : bool :=
  match fullmatch LABEL_REGEX label with
  | Some _ => true
  | None => false
  end.

(** [re.compile(r"^\s*([A-Za-z_]+)\s*([+\-*/])\s*([A-Za-z_]+)\s*$")] *)
Definition role_pattern : pattern :=
  {| code :=
       [At At_beginning;
        Max_repeat 0 space_set;
        Mark 0; Max_repeat 1 label_set; Mark 1;
        Max_repeat 0 space_set;
        Mark 2; In operator_set; Mark 3;
        Max_repeat 0 space_set;
        Mark 4; Max_repeat 1 label_set; Mark 5;
        Max_repeat 0 space_set;
        At At_end];
     ngroups := 3 |}.

(** [match.groups() if match else None].  The groups of a match are read
    as the triple the callers unpack; a groups tuple of another shape has
    no reading as [Tuple[str, str, str]] and is mapped to [None] (the
    pattern has three mandatory groups, so this does not arise, see
    [role_groups]). *)
Definition parse_role (expression : str) : option (str * str * str) :=
  match fullmatch role_pattern expression with
  | Some mo =>
      match groups (ngroups role_pattern) mo with
      | [Some l; Some o; Some r] => Some (l, o, r)
      | _ => None
      end
  | None => None
  end.

(** ** The fragment of pandas *)

Local Open Scope Z_scope.

(** Python exceptions (all of them subclasses of [Exception]). *)
Inductive exn :=
| TypeError
| ValueError
| KeyError (key : str)
| ReferenceError.

Inductive outcome (A : Type) :=
| Return (a : A)
| Raise (e : exn).
Arguments Return {A} a.
Arguments Raise {A} e.

(** Column elements: an element of an [int64] column, an element of a
    [float64] column, or a Python [str] held by an [object] column. *)
Inductive value :=
| I64 (z : Z)
| F64 (f : float)
| Obj (s : str).

Definition Series := list value.

(** Python's binary arithmetic operators. *)
Inductive arith := Add | Sub | Mul | Truediv.

(** [int64] arithmetic wraps around. *)
Definition wrap64 (z : Z) : Z := (z + 2 ^ 63) mod 2 ^ 64 - 2 ^ 63.

(** [int64] to [float64], rounding to nearest. *)
Definition to_float (z : Z) : float :=
  if z =? - 2 ^ 63 then (- 0x1p63)%float
  else if z <? 0 then (- of_uint63 (of_Z (- z)))%float
  else of_uint63 (of_Z z).

Definition float_op (o : arith) (x y : float) : float :=
  match o with
  | Add => x + y
  | Sub => x - y
  | Mul => x * y
  | Truediv => x / y
  end%float.

(** On two [int64] elements [/] is true division and gives a [float64]
    (a zero divisor gives an infinity or a NaN, it does not raise). *)
Definition int_op (o : arith) (x y : Z) : value :=
  match o with
  | Add => I64 (wrap64 (x + y))
  | Sub => I64 (wrap64 (x - y))
  | Mul => I64 (wrap64 (x * y))
  | Truediv => F64 (to_float x / to_float y)
  end.

(** [s * n] on a [str]. *)
Definition str_repeat (s : str) (n : Z) : str :=
  concat (replicate (Z.to_nat n) s).

(** The operation on one pair of elements. *)
Definition scalar_op (o : arith) (a b : value) : outcome value :=
  match a, b with
  | I64 x, I64 y => Return (int_op o x y)
  | I64 x, F64 y => Return (F64 (float_op o (to_float x) y))
  | F64 x, I64 y => Return (F64 (float_op o x (to_float y)))
  | F64 x, F64 y => Return (F64 (float_op o x y))
  | Obj s, Obj t =>
      match o with Add => Return (Obj (s ++ t)) | _ => Raise TypeError end
  | Obj s, I64 n | I64 n, Obj s =>
      match o with Mul => Return (Obj (str_repeat s n)) | _ => Raise TypeError end
  | Obj _, F64 _ | F64 _, Obj _ => Raise TypeError
  end.

(** Arithmetic on two columns that share their index: position by
    position, stopping at the first element pair that raises.  Columns of
    one frame have one length; operands of different lengths have no
    position-by-position result and give [ValueError]. *)
Fixpoint series_op (o : arith) (a b : Series) : outcome Series :=
  match a, b with
  | [], [] => Return []
  | x :: a', y :: b' =>
      match scalar_op o x y with
      | Return z =>
          match series_op o a' b' with
          | Return c => Return (z :: c)
          | Raise e => Raise e
          end
      | Raise e => Raise e
      end
  | _, _ => Raise ValueError
  end.

(** A frame: its columns in order, each under its label.  pandas lets
    several columns carry one label. *)
Definition DataFrame := list (str * Series).

Definition columns (t : DataFrame) : list str := map fst t.

(** [key in t.columns] *)
Definition has_column (t : DataFrame) (key : str) : bool :=
  bool_decide (key ∈ columns t).

(** The first column under [key], if any: the column under [key] when
    the labels are distinct. *)
Fixpoint get_column (t : DataFrame) (key : str) : option Series :=
  match t with
  | [] => None
  | (k, col) :: t' => if decide (k = key) then Some col else get_column t' key
  end.

(** [t[key] = col]: an existing column keeps its place and takes the new
    values, a new label is appended after the last column. *)
Definition set_column (t : DataFrame) (key : str) (col : Series) : DataFrame :=
  if has_column t key
  then map (fun kc => if decide (kc.1 = key) then (kc.1, col) else kc) t
  else t ++ [(key, col)].

(** The columns under [key], in their order. *)
Definition select (t : DataFrame) (key : str) : list Series :=
  map snd (List.filter (fun kc => bool_decide (kc.1 = key)) t).

(** What [t[key]] is: the column, when [key] labels one column; the frame
    of its columns, when [key] labels several. *)
Inductive selection :=
| One (col : Series)
| Many (key : str) (cols : list Series).

(** [t[key]], [None] standing for [KeyError]. *)
Definition item (t : DataFrame) (key : str) : option selection :=
  match select t key with
  | [] => None
  | [col] => Some (One col)
  | cols => Some (Many key cols)
  end.

(** What arithmetic on two such operands gives: a column, or the columns
    of a frame. *)
Inductive computed :=
| Column (c : Series)
| Frame (cols : list Series).

(** Frame with frame, labels equal: column by column. *)
Fixpoint frame_op (o : arith) (f g : list Series) : outcome (list Series) :=
  match f, g with
  | [], [] => Return []
  | a :: f', b :: g' =>
      match series_op o a b with
      | Return c =>
          match frame_op o f' g' with
          | Return cs => Return (c :: cs)
          | Raise e => Raise e
          end
      | Raise e => Raise e
      end
  | _, _ => Raise ValueError
  end.

(** A column of missing values, as long as [col]. *)
Definition nan_column (col : Series) : Series := map (fun _ => F64 nan) col.

(** [a op b] on what [df[l]] and [df[r]] are.  Two columns combine
    position by position.  Two frames are aligned on their labels: with
    one label on both sides they combine column by column, with two
    different labels every position of the aligned frames lacks an
    operand and the result holds missing values only.  A frame whose
    label is repeated cannot be aligned with a column: [ValueError]. *)
Definition binary_op (o : arith) (x y : selection) : outcome computed :=
  match x, y with
  | One a, One b =>
      match series_op o a b with
      | Return c => Return (Column c)
      | Raise e => Raise e
      end
  | Many k f, Many k' g =>
      if decide (k = k') then
        match frame_op o f g with
        | Return cs => Return (Frame cs)
        | Raise e => Raise e
        end
      else Return (Frame (map nan_column (f ++ g)))
  | One _, Many _ _ | Many _ _, One _ => Raise ValueError
  end.

(** The columns under [key] take the columns [cols], one each, in
    order. *)
Fixpoint replace_columns (t : DataFrame) (key : str) (cols : list Series)
    : DataFrame :=
  match t with
  | [] => []
  | (k, c) :: t' =>
      if decide (k = key) then
        match cols with
        | c' :: cols' => (k, c') :: replace_columns t' key cols'
        | [] => (k, c) :: replace_columns t' key []
        end
      else (k, c) :: replace_columns t' key cols
  end.

(** [t[key] = v].  A column is set as [set_column] says.  A frame is set
    when [key] labels as many columns as the frame has, each taking one;
    under a new label only a frame of one column can be set; every other
    assignment of a frame raises [ValueError]. *)
Definition assign (t : DataFrame) (key : str) (v : computed)
    : outcome DataFrame :=
  match v with
  | Column c => Return (set_column t key c)
  | Frame cols =>
      if has_column t key then
        if decide (length (select t key) = length cols)
        then Return (replace_columns t key cols)
        else Raise ValueError
      else
        match cols with
        | [c] => Return (set_column t key c)
        | _ => Raise ValueError
        end
  end.

(** ** Frames as objects: the store and the log *)

(** A frame is a mutable object; a variable holds a reference to it. *)
Definition ref := nat.

(** The records the logger receives. *)
Inductive record :=
| Invalid_new_column_name (name : str)
| Invalid_expression_format (role : str)
| Invalid_operand_label (col : str)
| Column_not_found (col : str)
| Unsupported_operator (op : str)
| Error_during_calculation (left_col op right_col : str) (e : exn).

Record world := World { frames : list DataFrame; log : list record }.

(** Computations: they read and update the world and either return or
    raise. *)
Definition M (A : Type) : Type := world -> outcome A * world.

Definition ret {A} (a : A) : M A := fun w => (Return a, w).

Definition raise {A} (e : exn) : M A := fun w => (Raise e, w).

Definition bind {A B} (m : M A) (f : A -> M B) : M B :=
  fun w =>
    match m w with
    | (Return a, w') => f a w'
    | (Raise e, w') => (Raise e, w')
    end.

Notation "'let*' x ':=' m 'in' k" := (bind m (fun x => k))
  (at level 10, x name, m at level 100, k at level 200).
Notation "m ;; k" := (bind m (fun _ => k))
  (at level 100, k at level 200, right associativity).

Definition lift {A} (o : outcome A) : M A := fun w => (o, w).

(** [try: x = body / except Exception as e: return handler(e)], followed
    by the rest of the function [k], which runs outside the [try]. *)
Definition try_or_return {A R} (body : M A) (handler : exn -> M R)
    (k : A -> M R) : M R :=
  fun w =>
    match body w with
    | (Return a, w') => k a w'
    | (Raise e, w') => handler e w'
    end.

(** [logger.warning(...)] *)
Definition logger_warning (r : record) : M unit :=
  fun w => (Return tt, {| frames := frames w; log := log w ++ [r] |}).

(** A new frame object with the contents [t]. *)
Definition new_frame (t : DataFrame) : M ref :=
  fun w =>
    (Return (length (frames w)),
     {| frames := frames w ++ [t]; log := log w |}).

(** The contents of the frame [df] refers to.  Python code holds
    references to live objects only; a reference outside the store,
    which the model's type also admits, is answered by
    [ReferenceError]. *)
Definition deref (df : ref) : M DataFrame :=
  fun w =>
    match frames w !! df with
    | Some t => (Return t, w)
    | None => (Raise ReferenceError, w)
    end.

(** [pd.DataFrame([])] *)
Definition DataFrame_empty : M ref := new_frame [].

(** [col in df.columns] *)
Definition contains (df : ref) (col : str) : M bool :=
  let* t := deref df in ret (has_column t col).

(** [df[key]] *)
Definition getitem (df : ref) (key : str) : M selection :=
  let* t := deref df in
  match item t key with
  | Some x => ret x
  | None => raise (KeyError key)
  end.

(** [df.copy()] *)
Definition copy (df : ref) : M ref :=
  let* t := deref df in new_frame t.

(** [df[key] = v], in place. *)
Definition setitem (df : ref) (key : str) (v : computed) : M unit :=
  let* t := deref df in
  match assign t key v with
  | Return t' =>
      fun w =>
        (Return tt, {| frames := <[df := t']> (frames w); log := log w |})
  | Raise e => raise e
  end.

(** ** [add_virtual_column] *)

(** The [operations] dict. *)
Definition operations
    : list (str * (selection -> selection -> outcome computed)) :=
  [ (pystr "+", fun a b => binary_op Add a b);
    (pystr "-", fun a b => binary_op Sub a b);
    (pystr "*", fun a b => binary_op Mul a b);
    (pystr "/", fun a b => binary_op Truediv a b) ].

(** [dict.get] *)
Fixpoint dict_get {V} (d : list (str * V)) (key : str) : option V :=
  match d with
  | [] => None
  | (k, v) :: d' => if decide (k = key) then Some v else dict_get d' key
  end.

(** [for col in cols: ...], each branch of the body returning from the
    function; [rest] is what follows the loop. *)
Fixpoint for_operands (df : ref) (cols : list str) (rest : M ref) : M ref :=
  match cols with
  | [] => rest
  | col :: cols' =>
      if negb (is_valid_label col) then
        logger_warning (Invalid_operand_label col) ;; DataFrame_empty
      else
        let* found := contains df col in
        if negb found then
          logger_warning (Column_not_found col) ;; DataFrame_empty
        else for_operands df cols' rest
  end.

Definition add_virtual_column (df : ref) (role new_column : str) : M ref :=
  if negb (is_valid_label new_column) then
    logger_warning (Invalid_new_column_name new_column) ;; DataFrame_empty
  else
    match parse_role role with
    | None =>
        logger_warning (Invalid_expression_format role) ;; DataFrame_empty
    | Some (left_col, op, right_col) =>
        for_operands df [left_col; right_col]
          match dict_get operations op with
          | None =>
              logger_warning (Unsupported_operator op) ;; DataFrame_empty
          | Some func =>
              try_or_return
                (let* a := getitem df left_col in
                 let* b := getitem df right_col in
                 lift (func a b))
                (fun e =>
                   logger_warning
                     (Error_during_calculation left_col op right_col e) ;;
                   DataFrame_empty)
                (fun result =>
                   let* df_copy := copy df in
                   setitem df_copy new_column result ;;
                   ret df_copy)
          end
    end.

(** ** Vocabulary of the statements *)

(** The symbol of an operator in an expression. *)
Definition symbol (o : arith) : str :=
  match o with
  | Add => pystr "+"
  | Sub => pystr "-"
  | Mul => pystr "*"
  | Truediv => pystr "/"
  end.

(** An ASCII letter or the underscore. *)
Definition label_char (c : N) : Prop :=
  (65 <= c <= 90 \/ 97 <= c <= 122 \/ c = 95)%N.

(** One or more ASCII letters and underscores. *)
Definition label (s : str) : Prop := s <> [] /\ Forall label_char s.

(** One of [+ - * /]. *)
Definition operator_char (c : N) : Prop :=
  (c = 43 \/ c = 45 \/ c = 42 \/ c = 47)%N.

Definition whitespace (s : str) : Prop :=
  Forall (fun c => is_unicode_space c = true) s.

(** [s] reads label, operator, label, with optional whitespace at both
    ends and around the operator. *)
Definition role_shape (s l o r : str) : Prop :=
  exists w1 w2 w3 w4 c,
    s = w1 ++ l ++ w2 ++ [c] ++ w3 ++ r ++ w4 /\
    o = [c] /\ operator_char c /\
    whitespace w1 /\ whitespace w2 /\ whitespace w3 /\ whitespace w4 /\
    label l /\ label r.

(** [v] does not start with a character of the set [cs]. *)
Definition stops (cs : charset) (v : str) : Prop :=
  match v with
  | [] => True
  | c :: _ => in_set cs c = false
  end.

(** A decimal digit. *)
Definition digit_char (c : N) : Prop := (48 <= c <= 57)%N.

(** The four operator symbols. *)
Definition operator_symbols : list str :=
  [pystr "+"; pystr "-"; pystr "*"; pystr "/"].

(** A record of one of the two defensive branches. *)
Definition defensive (rec : record) : Prop :=
  match rec with
  | Invalid_operand_label _ | Unsupported_operator _ => True
  | _ => False
  end.

(** The table of the examples. *)
Definition int_column (l : list Z) : Series := map I64 l.

Definition table_ab : DataFrame :=
  [ (pystr "a", int_column [1; 2; 3]); (pystr "b", int_column [4; 5; 6]) ].

Definition world_ab : world := {| frames := [table_ab]; log := [] |}.

(** The marks of a match of [role_pattern] whose three groups lie at the
    given positions (the operator group is one character long). *)
Definition role_marks (p0 p1 p2 p4 p5 : nat) : marks :=
  <[5%nat := p5]> (<[4%nat := p4]> (<[3%nat := S p2]> (<[2%nat := p2]>
    (<[1%nat := p1]> (<[0%nat := p0]> ∅))))).

Definition role_regs (w1 l w2 w3 r : str) : marks :=
  role_marks (length w1) (length w1 + length l)
    (length w1 + length l + length w2)
    (S (length w1 + length l + length w2) + length w3)
    (S (length w1 + length l + length w2) + length w3 + length r).

(** The world after a rejection: one record logged, one empty frame
    created. *)
Definition rejected (w : world) (r : record) : world :=
  {| frames := frames w ++ [[]]; log := log w ++ [r] |}.

(** The world after a success: one frame created, with contents [t']. *)
Definition accepted (w : world) (t' : DataFrame) : world :=
  {| frames := frames w ++ [t']; log := log w |}.

(** The reasons for which a call on a frame with contents [t] is
    rejected, each with the record it logs. *)
Inductive rejection (t : DataFrame) (role new_column : str) : record -> Prop :=
| Reject_name :
    is_valid_label new_column = false ->
    rejection t role new_column (Invalid_new_column_name new_column)
| Reject_format :
    is_valid_label new_column = true ->
    parse_role role = None ->
    rejection t role new_column (Invalid_expression_format role)
| Reject_left l o r :
    is_valid_label new_column = true ->
    parse_role role = Some (l, o, r) ->
    has_column t l = false ->
    rejection t role new_column (Column_not_found l)
| Reject_right l o r :
    is_valid_label new_column = true ->
    parse_role role = Some (l, o, r) ->
    has_column t l = true ->
    has_column t r = false ->
    rejection t role new_column (Column_not_found r)
| Reject_calculation l o r x y e :
    is_valid_label new_column = true ->
    parse_role role = Some (l, symbol o, r) ->
    item t l = Some x ->
    item t r = Some y ->
    binary_op o x y = Raise e ->
    rejection t role new_column (Error_during_calculation l (symbol o) r e).

(** The calls that succeed, each with the contents of its result. *)
Inductive success (t : DataFrame) (role new_column : str) : DataFrame -> Prop :=
| Success l o r x y v t' :
    is_valid_label new_column = true ->
    parse_role role = Some (l, symbol o, r) ->
    item t l = Some x ->
    item t r = Some y ->
    binary_op o x y = Return v ->
    assign t new_column v = Return t' ->
    success t role new_column t'.

(** The calls whose assignment to the copy raises. *)
Inductive assignment_raises (t : DataFrame) (role new_column : str)
    : exn -> Prop :=
| Assignment_raises l o r x y v e :
    is_valid_label new_column = true ->
    parse_role role = Some (l, symbol o, r) ->
    item t l = Some x ->
    item t r = Some y ->
    binary_op o x y = Return v ->
    assign t new_column v = Raise e ->
    assignment_raises t role new_column e.

(** A table in which the label [a] is repeated. *)
Definition table_aab : DataFrame :=
  [ (pystr "a", int_column [1]); (pystr "a", int_column [2]);
    (pystr "b", int_column [3]) ].

Definition world_aab : world := {| frames := [table_aab]; log := [] |}.

(** The tables the examples produce. *)
Definition table_abc : DataFrame :=
  table_ab ++ [ (pystr "c", int_column [5; 7; 9]) ].

Definition table_abd : DataFrame :=
  table_ab ++ [ (pystr "d", [F64 0.25; F64 0x1.999999999999ap-2; F64 0.5]) ].

(** [s] with its whitespace deleted. *)
Definition strip_space (s : str) : str :=
  List.filter (fun c => negb (is_unicode_space c)) s.

(** The number of operator characters in [s]. *)
Definition operator_count (s : str) : nat :=
  length (List.filter (in_set operator_set) s).

(** A frame of [n] rows: distinct labels, every column [n] long. *)
Definition rectangular (n : nat) (t : DataFrame) : Prop :=
  NoDup (columns t) /\ Forall (fun kc => length kc.2 = n) t.

(** The expression [l op r] written with single spaces. *)
Definition render (l : str) (o : arith) (r : str) : str :=
  l ++ pystr " " ++ symbol o ++ pystr " " ++ r.

(** * Properties *)

(** ** Strings *)

Lemma slice_middle (pre x post s : str) (a b : nat) :
  s = pre ++ x ++ post -> a = length pre -> b = (a + length x)%nat ->
  slice s a b = x.
Proof.
  intros -> -> ->. unfold slice.
  rewrite drop_app_length.
  replace (length pre + length x - length pre)%nat with (length x) by lia.
  apply take_app_length.
Qed.

(** ** The character sets *)

Section Charsets.
Local Open Scope N_scope.

Lemma label_set_spec c : in_set label_set c = true <-> label_char c.
Proof. unfold in_set, label_set, label_char, existsb, item_matches. lia. Qed.

Lemma operator_set_spec c : in_set operator_set c = true <-> operator_char c.
Proof.
  unfold in_set, operator_set, operator_char, existsb, item_matches. lia.
Qed.

Lemma space_set_spec c : in_set space_set c = is_unicode_space c.
Proof. unfold in_set, space_set, existsb, item_matches. apply orb_false_r. Qed.

Lemma label_not_space c : label_char c -> in_set space_set c = false.
Proof.
  rewrite space_set_spec. unfold label_char, is_unicode_space. lia.
Qed.

Lemma space_not_label c : is_unicode_space c = true -> in_set label_set c = false.
Proof.
  intros H. apply not_true_is_false. rewrite label_set_spec.
  revert H. unfold label_char, is_unicode_space. lia.
Qed.

Lemma operator_not_label c : operator_char c -> in_set label_set c = false.
Proof.
  intros H. apply not_true_is_false. rewrite label_set_spec.
  revert H. unfold label_char, operator_char. lia.
Qed.

Lemma operator_not_space c : operator_char c -> in_set space_set c = false.
Proof.
  rewrite space_set_spec. unfold operator_char, is_unicode_space. lia.
Qed.

End Charsets.

(** ** The matching engine *)

Section Engine.
Variable cs : charset.
Variable k : nat -> str -> option marks.

(** Whatever a repetition returns comes from the continuation, after a
    prefix of characters of the set that is long enough. *)
Lemma max_repeat_sound rest : forall lo ptr m,
  max_repeat cs k lo ptr rest = Some m ->
  exists u v,
    rest = u ++ v /\ Forall (fun c => in_set cs c = true) u /\
    (lo <= length u)%nat /\ k (ptr + length u)%nat v = Some m.
Proof.
  induction rest as [|c rest IH]; intros lo ptr m H; simpl in H.
  - destruct lo; [|discriminate].
    exists [], []. rewrite Nat.add_0_r. auto.
  - destruct (in_set cs c) eqn:Hc.
    + destruct (max_repeat cs k (pred lo) (S ptr) rest) as [m'|] eqn:Hrec.
      * injection H as <-.
        apply IH in Hrec as (u & v & -> & Hu & Hlo & Hk).
        exists (c :: u), v. simpl. rewrite Nat.add_succ_r.
        repeat split; auto. lia.
      * destruct lo; [|discriminate].
        exists [], (c :: rest). rewrite Nat.add_0_r. auto with arith.
    + destruct lo; [|discriminate].
      exists [], (c :: rest). rewrite Nat.add_0_r. auto with arith.
Qed.

(** The longest prefix is tried first: when the continuation accepts
    after it, that is the result. *)
Lemma max_repeat_greedy u : forall v lo ptr m,
  Forall (fun c => in_set cs c = true) u -> stops cs v ->
  (lo <= length u)%nat ->
  k (ptr + length u)%nat v = Some m ->
  max_repeat cs k lo ptr (u ++ v) = Some m.
Proof.
  induction u as [|c u IH]; intros v lo ptr m Hu Hv Hlo Hk; simpl in *.
  - rewrite Nat.add_0_r in Hk.
    assert (lo = 0%nat) as -> by lia.
    destruct v as [|c v]; simpl; [assumption|].
    simpl in Hv. now rewrite Hv.
  - inversion Hu as [|? ? Hc Hu']; subst. rewrite Hc.
    rewrite (IH v (pred lo) (S ptr) m); auto; [lia|].
    now rewrite Nat.add_succ_r in Hk.
Qed.

Lemma stops_Forall v :
  Forall (fun c => in_set cs c = false) v -> stops cs v.
Proof. destruct 1; simpl; auto. Qed.

Lemma stops_app_nonempty u v :
  u <> [] -> Forall (fun c => in_set cs c = false) u -> stops cs (u ++ v).
Proof. destruct 2; simpl; [congruence | auto]. Qed.

Lemma stops_app u v :
  Forall (fun c => in_set cs c = false) u -> stops cs v -> stops cs (u ++ v).
Proof. destruct 1; simpl; auto. Qed.

End Engine.

(** ** [is_valid_label] *)

Lemma Forall_label_set (s : str) :
  Forall (fun c => in_set label_set c = true) s <-> Forall label_char s.
Proof. apply Forall_iff. intros c. apply label_set_spec. Qed.

Lemma is_valid_label_label (s : str) : is_valid_label s = true <-> label s.
Proof.
  unfold is_valid_label, fullmatch, LABEL_REGEX, label.
  cbn [code sre_match]. split.
  - destruct (max_repeat _ _ _ _ _) as [m|] eqn:H; [intros _|discriminate].
    apply max_repeat_sound in H as (u & v & -> & Hu & Hlen & H).
    destruct v; [|destruct (at_end _); discriminate].
    rewrite app_nil_r. split.
    + destruct u; simpl in Hlen; [lia | discriminate].
    + now apply Forall_label_set.
  - intros [Hne Hall].
    rewrite <- (app_nil_r s).
    erewrite max_repeat_greedy; eauto.
    + now apply Forall_label_set.
    + exact I.
    + destruct s; [congruence | simpl; lia].
Qed.

Lemma is_valid_label_false (s : str) : is_valid_label s = false <-> ~ label s.
Proof.
  rewrite <- is_valid_label_label. destruct (is_valid_label s); intuition congruence.
Qed.

(** ** [parse_role] *)

Lemma Forall_space_set (s : str) :
  Forall (fun c => in_set space_set c = true) s <-> whitespace s.
Proof. apply Forall_iff. intros c. now rewrite space_set_spec. Qed.

Lemma label_intro (s : str) :
  Forall (fun c => in_set label_set c = true) s -> (1 <= length s)%nat ->
  label s.
Proof.
  intros H Hlen. split; [|now apply Forall_label_set].
  destruct s; simpl in Hlen; [lia | discriminate].
Qed.

Lemma role_match_sound (s : str) (m : marks) :
  sre_match (code role_pattern) 0 s ∅ = Some m ->
  exists w1 l w2 c w3 r w4,
    s = w1 ++ l ++ w2 ++ [c] ++ w3 ++ r ++ w4 /\
    operator_char c /\
    whitespace w1 /\ whitespace w2 /\ whitespace w3 /\ whitespace w4 /\
    label l /\ label r /\
    m = role_regs w1 l w2 w3 r.
Proof.
  unfold role_pattern. cbn [code sre_match]. intros H.
  apply max_repeat_sound in H as (w1 & v1 & -> & Hw1 & _ & H).
  cbn [sre_match] in H.
  apply max_repeat_sound in H as (l & v2 & -> & Hl & Hl1 & H).
  cbn [sre_match] in H.
  apply max_repeat_sound in H as (w2 & v3 & -> & Hw2 & _ & H).
  cbn [sre_match] in H.
  destruct v3 as [|c v3]; [discriminate|].
  destruct (in_set operator_set c) eqn:Hc; [|discriminate].
  apply max_repeat_sound in H as (w3 & v4 & -> & Hw3 & _ & H).
  cbn [sre_match] in H.
  apply max_repeat_sound in H as (r & v5 & -> & Hr & Hr1 & H).
  cbn [sre_match] in H.
  apply max_repeat_sound in H as (w4 & v6 & -> & Hw4 & _ & H).
  cbn [sre_match] in H.
  destruct v6; [|destruct (at_end _); discriminate].
  cbn [at_end] in H. injection H as <-.
  exists w1, l, w2, c, w3, r, w4. rewrite app_nil_r.
  apply Forall_space_set in Hw1, Hw2, Hw3, Hw4.
  apply operator_set_spec in Hc.
  repeat split; auto using label_intro; try apply label_intro; auto.
Qed.

Lemma whitespace_not_label (w : str) :
  whitespace w -> Forall (fun c => in_set label_set c = false) w.
Proof.
  intros H. eapply Forall_impl; [exact H|]. intros c. apply space_not_label.
Qed.

Lemma label_not_whitespace (l : str) :
  Forall label_char l -> Forall (fun c => in_set space_set c = false) l.
Proof.
  intros H. eapply Forall_impl; [exact H|]. intros c. apply label_not_space.
Qed.

Lemma role_match_complete (w1 l w2 w3 r w4 : str) (c : N) :
  operator_char c ->
  whitespace w1 -> whitespace w2 -> whitespace w3 -> whitespace w4 ->
  label l -> label r ->
  sre_match (code role_pattern) 0
    (w1 ++ l ++ w2 ++ [c] ++ w3 ++ r ++ w4) ∅
  = Some (role_regs w1 l w2 w3 r).
Proof.
  intros Hc Hw1 Hw2 Hw3 Hw4 [Hl1 Hl] [Hr1 Hr].
  unfold role_pattern. cbn [code sre_match].
  apply max_repeat_greedy;
    [now apply Forall_space_set
    | apply stops_app_nonempty; auto using label_not_whitespace
    | lia | ].
  cbn [sre_match].
  apply max_repeat_greedy;
    [now apply Forall_label_set
    | apply stops_app; [now apply whitespace_not_label|];
      simpl; now apply operator_not_label
    | destruct l; [congruence | simpl; lia] | ].
  cbn [sre_match].
  apply max_repeat_greedy;
    [now apply Forall_space_set
    | simpl; now apply operator_not_space
    | lia | ].
  cbn [sre_match app].
  rewrite (proj2 (operator_set_spec c) Hc).
  apply max_repeat_greedy;
    [now apply Forall_space_set
    | apply stops_app_nonempty; auto using label_not_whitespace
    | lia | ].
  cbn [sre_match].
  apply max_repeat_greedy;
    [now apply Forall_label_set
    | apply stops_Forall; now apply whitespace_not_label
    | destruct r; [congruence | simpl; lia] | ].
  cbn [sre_match].
  rewrite <- (app_nil_r w4).
  apply max_repeat_greedy;
    [now apply Forall_space_set | exact I | lia | ].
  cbn [sre_match at_end]. reflexivity.
Qed.

Lemma role_groups (w1 l w2 w3 r w4 : str) (c : N) :
  groups 3
    {| string := w1 ++ l ++ w2 ++ [c] ++ w3 ++ r ++ w4;
       regs := role_regs w1 l w2 w3 r |}
  = [Some l; Some [c]; Some r].
Proof.
  unfold groups, group, role_regs, role_marks.
  cbn [map seq regs string Nat.mul Nat.add].
  repeat (rewrite lookup_insert_eq || (rewrite lookup_insert_ne by lia)).
  f_equal; [|f_equal; [|f_equal]]; f_equal.
  - now apply (slice_middle w1 l (w2 ++ [c] ++ w3 ++ r ++ w4)).
  - apply (slice_middle (w1 ++ l ++ w2) [c] (w3 ++ r ++ w4)).
    + now rewrite <- !app_assoc.
    + rewrite !length_app. lia.
    + simpl. lia.
  - apply (slice_middle (w1 ++ l ++ w2 ++ [c] ++ w3) r w4).
    + now rewrite <- !app_assoc.
    + rewrite !length_app. simpl. lia.
    + lia.
Qed.

Lemma parse_role_shape (s l o r : str) :
  parse_role s = Some (l, o, r) <-> role_shape s l o r.
Proof.
  unfold parse_role, fullmatch. split.
  - destruct (sre_match _ _ _ _) as [m|] eqn:H; [|discriminate].
    apply role_match_sound in H
      as (w1 & l' & w2 & c & w3 & r' & w4 & -> & Hc & H1 & H2 & H3 & H4 & Hl & Hr & ->).
    cbn [ngroups role_pattern]. rewrite role_groups.
    intros [= <- <- <-].
    exists w1, w2, w3, w4, c. auto 10.
  - intros (w1 & w2 & w3 & w4 & c & -> & -> & Hc & H1 & H2 & H3 & H4 & Hl & Hr).
    rewrite role_match_complete by assumption.
    cbn [ngroups role_pattern]. now rewrite role_groups.
Qed.

Lemma parse_role_None (s : str) :
  parse_role s = None <-> ~ exists l o r, role_shape s l o r.
Proof.
  split.
  - intros H (l & o & r & Hs). apply parse_role_shape in Hs. congruence.
  - intros H. destruct (parse_role s) as [[[l o] r]|] eqn:Hp; [|reflexivity].
    exfalso. apply H. exists l, o, r. now apply parse_role_shape.
Qed.

(** What the parser returns is valid by construction. *)
Lemma parse_role_parts (s l o r : str) :
  parse_role s = Some (l, o, r) ->
  is_valid_label l = true /\ is_valid_label r = true /\ exists a, o = symbol a.
Proof.
  intros H. apply parse_role_shape in H
    as (w1 & w2 & w3 & w4 & c & _ & -> & Hc & _ & _ & _ & _ & Hl & Hr).
  repeat split; try now apply is_valid_label_label.
  destruct Hc as [-> | [-> | [-> | ->]]];
    [exists Add | exists Sub | exists Mul | exists Truediv]; reflexivity.
Qed.

(** ** The frame operations *)

Lemma has_column_get (t : DataFrame) (key : str) :
  has_column t key = true <-> is_Some (get_column t key).
Proof.
  unfold has_column, columns. rewrite bool_decide_eq_true.
  induction t as [|[k col] t IH]; simpl.
  - rewrite elem_of_nil. split; [tauto | intros [x Hx]; discriminate].
  - rewrite elem_of_cons, IH. destruct (decide (k = key)) as [->|Hne].
    + split; eauto.
    + split; [intros [Heq | H]; [congruence | assumption] | auto].
Qed.

Lemma has_column_false (t : DataFrame) (key : str) :
  has_column t key = false <-> get_column t key = None.
Proof.
  rewrite <- not_true_iff_false, has_column_get, <- eq_None_not_Some. tauto.
Qed.

Lemma operations_symbol (o : arith) :
  dict_get operations (symbol o) = Some (binary_op o).
Proof. destruct o; reflexivity. Qed.

Lemma select_nil (t : DataFrame) (key : str) :
  key ∉ columns t -> select t key = [].
Proof.
  unfold select, columns. induction t as [|[k c] t IH]; simpl; [reflexivity|].
  rewrite not_elem_of_cons. intros [Hne Hin].
  rewrite bool_decide_eq_false_2 by congruence. auto.
Qed.

(** A label that names a column selects something. *)
Lemma has_column_item (t : DataFrame) (key : str) :
  has_column t key = true -> exists x, item t key = Some x.
Proof.
  unfold has_column, item, select, columns. rewrite bool_decide_eq_true.
  induction t as [|[k c] t IH]; simpl.
  - intros H. now apply elem_of_nil in H.
  - intros H. destruct (decide (k = key)) as [->|Hne].
    + rewrite bool_decide_eq_true_2 by reflexivity. simpl.
      destruct (map snd _); eauto.
    + rewrite bool_decide_eq_false_2 by assumption.
      apply IH. apply elem_of_cons in H as [H|H]; [congruence | assumption].
Qed.

(** With distinct labels [t[key]] is the column [get_column] finds. *)
Lemma select_distinct (t : DataFrame) (key : str) (a : Series) :
  NoDup (columns t) -> get_column t key = Some a -> select t key = [a].
Proof.
  unfold select, columns. induction t as [|[k c] t IH]; simpl; [discriminate|].
  intros Hnd H. apply NoDup_cons in Hnd as [Hk Hnd].
  destruct (decide (k = key)) as [->|Hne].
  - injection H as ->. rewrite bool_decide_eq_true_2 by reflexivity. simpl.
    f_equal. now apply (select_nil t key).
  - rewrite bool_decide_eq_false_2 by assumption. auto.
Qed.

Lemma item_distinct (t : DataFrame) (key : str) (a : Series) :
  NoDup (columns t) -> get_column t key = Some a -> item t key = Some (One a).
Proof.
  intros Hnd H. unfold item. now rewrite (select_distinct t key a).
Qed.

Lemma item_distinct_inv (t : DataFrame) (key : str) (x : selection) :
  NoDup (columns t) -> item t key = Some x ->
  exists a, x = One a /\ get_column t key = Some a.
Proof.
  intros Hnd H.
  destruct (get_column t key) as [a|] eqn:Hg.
  - rewrite (item_distinct t key a Hnd Hg) in H. injection H as <-. eauto.
  - apply has_column_false in Hg. unfold has_column in Hg.
    rewrite bool_decide_eq_false in Hg.
    unfold item in H. rewrite select_nil in H by assumption. discriminate.
Qed.

(** ** The paths of [add_virtual_column] *)

(** Runs a computation along the path that the equations among the
    hypotheses select. *)
Ltac run :=
  repeat match goal with
    | H : _ = _ |- _ => rewrite H
    | _ =>
        progress cbn [negb for_operands frames log bind contains deref ret
                      getitem lift try_or_return copy setitem new_frame raise]
    | _ =>
        progress unfold bind, contains, deref, ret, getitem, lift,
          try_or_return, copy, setitem, new_frame, raise
    end.

Section Paths.
Variables (w : world) (df : ref) (t : DataFrame) (role new_column : str).
Hypothesis Hdf : frames w !! df = Some t.

Lemma avc_reject_name :
  is_valid_label new_column = false ->
  add_virtual_column df role new_column w
  = (Return (length (frames w)), rejected w (Invalid_new_column_name new_column)).
Proof. intros H. unfold add_virtual_column. now rewrite H. Qed.

Lemma avc_reject_format :
  is_valid_label new_column = true ->
  parse_role role = None ->
  add_virtual_column df role new_column w
  = (Return (length (frames w)), rejected w (Invalid_expression_format role)).
Proof. intros H1 H2. unfold add_virtual_column. now rewrite H1, H2. Qed.

Lemma avc_reject_left l o r :
  is_valid_label new_column = true ->
  parse_role role = Some (l, o, r) ->
  has_column t l = false ->
  add_virtual_column df role new_column w
  = (Return (length (frames w)), rejected w (Column_not_found l)).
Proof.
  intros H1 H2 H3. destruct (parse_role_parts _ _ _ _ H2) as (Hl & _ & _).
  unfold add_virtual_column. run. reflexivity.
Qed.

Lemma avc_reject_right l o r :
  is_valid_label new_column = true ->
  parse_role role = Some (l, o, r) ->
  has_column t l = true ->
  has_column t r = false ->
  add_virtual_column df role new_column w
  = (Return (length (frames w)), rejected w (Column_not_found r)).
Proof.
  intros H1 H2 H3 H4. destruct (parse_role_parts _ _ _ _ H2) as (Hl & Hr & _).
  unfold add_virtual_column. run. reflexivity.
Qed.

Lemma item_has_column key x : item t key = Some x -> has_column t key = true.
Proof.
  intros H. apply not_false_iff_true. intros Hc.
  unfold has_column in Hc. rewrite bool_decide_eq_false in Hc.
  unfold item in H. rewrite select_nil in H by assumption. discriminate.
Qed.

Lemma avc_reject_operation l o r x y e :
  is_valid_label new_column = true ->
  parse_role role = Some (l, symbol o, r) ->
  item t l = Some x ->
  item t r = Some y ->
  binary_op o x y = Raise e ->
  add_virtual_column df role new_column w
  = (Return (length (frames w)),
     rejected w (Error_during_calculation l (symbol o) r e)).
Proof.
  intros H1 H2 Hx Hy He.
  destruct (parse_role_parts _ _ _ _ H2) as (Hl & Hr & _).
  pose proof (item_has_column _ _ Hx) as Hcl.
  pose proof (item_has_column _ _ Hy) as Hcr.
  pose proof (operations_symbol o) as Hop.
  unfold add_virtual_column. run. reflexivity.
Qed.

Lemma avc_assigned l o r x y v t' :
  is_valid_label new_column = true ->
  parse_role role = Some (l, symbol o, r) ->
  item t l = Some x ->
  item t r = Some y ->
  binary_op o x y = Return v ->
  assign t new_column v = Return t' ->
  add_virtual_column df role new_column w
  = (Return (length (frames w)), accepted w t').
Proof.
  intros H1 H2 Hx Hy Hv Ht'.
  destruct (parse_role_parts _ _ _ _ H2) as (Hl & Hr & _).
  pose proof (item_has_column _ _ Hx) as Hcl.
  pose proof (item_has_column _ _ Hy) as Hcr.
  pose proof (operations_symbol o) as Hop.
  unfold add_virtual_column. run.
  rewrite lookup_app_r, Nat.sub_diag by lia. cbn [lookup list_lookup].
  run. unfold accepted. cbn [frames log]. f_equal. f_equal.
  rewrite insert_app_r_alt, Nat.sub_diag by lia. reflexivity.
Qed.

(** The assignment is made on the copy, after the [try]: what it raises
    reaches the caller. *)
Lemma avc_assignment_raises l o r x y v e :
  is_valid_label new_column = true ->
  parse_role role = Some (l, symbol o, r) ->
  item t l = Some x ->
  item t r = Some y ->
  binary_op o x y = Return v ->
  assign t new_column v = Raise e ->
  add_virtual_column df role new_column w = (Raise e, accepted w t).
Proof.
  intros H1 H2 Hx Hy Hv Ht'.
  destruct (parse_role_parts _ _ _ _ H2) as (Hl & Hr & _).
  pose proof (item_has_column _ _ Hx) as Hcl.
  pose proof (item_has_column _ _ Hy) as Hcr.
  pose proof (operations_symbol o) as Hop.
  unfold add_virtual_column. run.
  rewrite lookup_app_r, Nat.sub_diag by lia. cbn [lookup list_lookup].
  run. reflexivity.
Qed.

(** Every call ends on one of the paths above. *)
Lemma avc_cases :
  (exists rec, rejection t role new_column rec /\
     add_virtual_column df role new_column w
     = (Return (length (frames w)), rejected w rec))
  \/
  (exists t', success t role new_column t' /\
     add_virtual_column df role new_column w
     = (Return (length (frames w)), accepted w t'))
  \/
  (exists e, assignment_raises t role new_column e /\
     add_virtual_column df role new_column w = (Raise e, accepted w t)).
Proof.
  destruct (is_valid_label new_column) eqn:H1.
  2:{ left. eexists. split; [now apply Reject_name | now apply avc_reject_name]. }
  destruct (parse_role role) as [[[l o] r]|] eqn:H2.
  2:{ left. eexists. split; [now apply Reject_format | now apply avc_reject_format]. }
  destruct (parse_role_parts _ _ _ _ H2) as (_ & _ & [a ->]).
  destruct (has_column t l) eqn:Hl.
  2:{ left. eexists. split; [eapply Reject_left | eapply avc_reject_left]; eauto. }
  destruct (has_column t r) eqn:Hr.
  2:{ left. eexists. split; [eapply Reject_right | eapply avc_reject_right]; eauto. }
  apply has_column_item in Hl as [x Hx], Hr as [y Hy].
  destruct (binary_op a x y) as [v|e] eqn:Hop.
  - destruct (assign t new_column v) as [t'|e] eqn:Hset.
    + right. left. eexists.
      split; [eapply Success | eapply avc_assigned]; eauto.
    + right. right. eexists.
      split; [eapply Assignment_raises | eapply avc_assignment_raises]; eauto.
  - left. eexists.
    split; [eapply Reject_calculation | eapply avc_reject_operation]; eauto.
Qed.

(** *** Tables with distinct labels *)

Hypothesis Hnd : NoDup (columns t).

Lemma avc_reject_calculation l o r a b e :
  is_valid_label new_column = true ->
  parse_role role = Some (l, symbol o, r) ->
  get_column t l = Some a ->
  get_column t r = Some b ->
  series_op o a b = Raise e ->
  add_virtual_column df role new_column w
  = (Return (length (frames w)),
     rejected w (Error_during_calculation l (symbol o) r e)).
Proof.
  intros H1 H2 Ha Hb He.
  eapply avc_reject_operation; eauto using item_distinct.
  simpl. now rewrite He.
Qed.

Lemma avc_success l o r a b c :
  is_valid_label new_column = true ->
  parse_role role = Some (l, symbol o, r) ->
  get_column t l = Some a ->
  get_column t r = Some b ->
  series_op o a b = Return c ->
  add_virtual_column df role new_column w
  = (Return (length (frames w)), accepted w (set_column t new_column c)).
Proof.
  intros H1 H2 Ha Hb Hc.
  eapply (avc_assigned l o r (One a) (One b) (Column c));
    eauto using item_distinct.
  simpl. now rewrite Hc.
Qed.

(** With distinct labels a call is rejected or returns the input with
    the computed column set. *)
Lemma avc_cases_distinct :
  (exists rec,
     add_virtual_column df role new_column w
     = (Return (length (frames w)), rejected w rec))
  \/
  (exists l o r a b c,
     is_valid_label new_column = true /\
     parse_role role = Some (l, symbol o, r) /\
     get_column t l = Some a /\ get_column t r = Some b /\
     series_op o a b = Return c /\
     add_virtual_column df role new_column w
     = (Return (length (frames w)), accepted w (set_column t new_column c))).
Proof.
  destruct avc_cases as [(rec & _ & E) | [(t' & Hok & E) | (e & Hbad & E)]].
  - left. eauto.
  - right. destruct Hok as [l o r x y v t' H1 H2 Hx Hy Hv Ht'].
    apply item_distinct_inv in Hx as (a & -> & Ha); [|assumption].
    apply item_distinct_inv in Hy as (b & -> & Hb); [|assumption].
    simpl in Hv. destruct (series_op o a b) as [c|] eqn:Hc; [|discriminate].
    injection Hv as <-. simpl in Ht'. injection Ht' as <-.
    exists l, o, r, a, b, c. auto 10.
  - exfalso. destruct Hbad as [l o r x y v e H1 H2 Hx Hy Hv Ht'].
    apply item_distinct_inv in Hx as (a & -> & Ha); [|assumption].
    apply item_distinct_inv in Hy as (b & -> & Hb); [|assumption].
    simpl in Hv. destruct (series_op o a b) as [c|]; [|discriminate].
    injection Hv as <-. discriminate.
Qed.

End Paths.

(** ** Columns of a frame *)

Lemma set_column_new (t : DataFrame) (key : str) (col : Series) :
  key ∉ columns t -> set_column t key col = t ++ [(key, col)].
Proof.
  intros H. unfold set_column, has_column.
  now rewrite bool_decide_eq_false_2.
Qed.

Lemma set_column_existing (t : DataFrame) (key : str) (col : Series) :
  key ∈ columns t ->
  set_column t key col
  = map (fun kc => if decide (kc.1 = key) then (kc.1, col) else kc) t.
Proof.
  intros H. unfold set_column, has_column.
  now rewrite bool_decide_eq_true_2.
Qed.

Lemma columns_set_existing (t : DataFrame) (key : str) (col : Series) :
  columns (map (fun kc => if decide (kc.1 = key) then (kc.1, col) else kc) t)
  = columns t.
Proof.
  unfold columns. rewrite map_map. apply map_ext.
  intros [k c]. simpl. now destruct (decide (k = key)).
Qed.

Lemma get_column_app (t u : DataFrame) (key : str) :
  get_column (t ++ u) key
  = match get_column t key with Some c => Some c | None => get_column u key end.
Proof.
  induction t as [|[k c] t IH]; simpl; [reflexivity|].
  now destruct (decide (k = key)).
Qed.

Lemma get_column_set_eq (t : DataFrame) (key : str) (col : Series) :
  get_column (set_column t key col) key = Some col.
Proof.
  unfold set_column. destruct (has_column t key) eqn:H.
  - apply has_column_get in H as [c0 H].
    induction t as [|[k c] t IH]; simpl in *; [discriminate|].
    destruct (decide (k = key)) as [->|Hne]; simpl.
    + now rewrite decide_True.
    + rewrite decide_False by assumption. auto.
  - apply has_column_false in H. rewrite get_column_app, H. simpl.
    now rewrite decide_True.
Qed.

Lemma get_column_set_ne (t : DataFrame) (key k' : str) (col : Series) :
  k' <> key -> get_column (set_column t key col) k' = get_column t k'.
Proof.
  intros Hne. unfold set_column. destruct (has_column t key).
  - induction t as [|[k c] t IH]; simpl; [reflexivity|].
    destruct (decide (k = key)) as [->|Hk]; simpl.
    + rewrite !decide_False by congruence. apply IH.
    + destruct (decide (k = k')); [reflexivity | apply IH].
  - rewrite get_column_app. destruct (get_column t k'); [reflexivity|].
    simpl. now rewrite decide_False by congruence.
Qed.

Lemma set_column_nonempty (t : DataFrame) (key : str) (col : Series) :
  set_column t key col <> [].
Proof.
  intros H. pose proof (get_column_set_eq t key col) as G.
  rewrite H in G. discriminate.
Qed.

(** ** Arithmetic on columns *)

Lemma series_op_length (o : arith) (a : Series) : forall b c,
  series_op o a b = Return c -> length c = length a /\ length c = length b.
Proof.
  induction a as [|x a IH]; intros [|y b] c H; simpl in H; try discriminate.
  - injection H as <-. auto.
  - destruct (scalar_op o x y); [|discriminate].
    destruct (series_op o a b) as [c'|] eqn:Hrec; [|discriminate].
    injection H as <-. apply IH in Hrec as [H1 H2]. simpl. auto.
Qed.

Lemma series_op_lookup (o : arith) (a : Series) : forall b c i x y,
  series_op o a b = Return c ->
  a !! i = Some x -> b !! i = Some y ->
  exists z, c !! i = Some z /\ scalar_op o x y = Return z.
Proof.
  induction a as [|x0 a IH]; intros [|y0 b] c i x y H Ha Hb;
    simpl in H; try discriminate.
  destruct (scalar_op o x0 y0) as [z0|] eqn:Hz; [|discriminate].
  destruct (series_op o a b) as [c'|] eqn:Hrec; [|discriminate].
  injection H as <-. destruct i as [|i]; simpl in *.
  - injection Ha as <-. injection Hb as <-. eauto.
  - eapply IH; eauto.
Qed.

(** * The claims *)

(** C4. For every string [s], [is_valid_label s] is true if and only if
    [s] is non-empty and every character of [s] is an ASCII letter or the
    underscore; it is false for the empty string and for every string
    that contains a digit, a whitespace character or any other character
    that is neither a letter nor the underscore. *)
Theorem is_valid_label_spec :
  (forall s, is_valid_label s = true <-> s <> [] /\ Forall label_char s) /\
  is_valid_label [] = false /\
  (forall s c, c ∈ s -> digit_char c -> is_valid_label s = false) /\
  (forall s c, c ∈ s -> is_unicode_space c = true -> is_valid_label s = false) /\
  (forall s c, c ∈ s -> ~ label_char c -> is_valid_label s = false).
Proof.
  assert (forall s c, c ∈ s -> ~ label_char c -> is_valid_label s = false)
    as Hbad.
  { intros s c Hin Hc. apply is_valid_label_false. intros [_ Hall].
    rewrite Forall_forall in Hall. auto. }
  split; [|split; [|split; [|split]]].
  - intros s. apply is_valid_label_label.
  - reflexivity.
  - intros s c Hin Hd. apply (Hbad s c Hin).
    unfold digit_char, label_char in *. lia.
  - intros s c Hin Hs. apply (Hbad s c Hin).
    intros Hl. apply label_not_space in Hl.
    rewrite space_set_spec in Hl. congruence.
  - exact Hbad.
Qed.

Lemma is_valid_label_spec_witness : is_valid_label (pystr "c1") = false.
Proof.
  apply (proj1 (proj2 (proj2 is_valid_label_spec)) (pystr "c1") 49%N).
  - simpl. apply list_elem_of_In. simpl. auto.
  - unfold digit_char. lia.
Defined.

(** C3. For every string, the parser returns the triple (left label,
    operator, right label) exactly when the whole string reads label,
    operator, label, with optional whitespace at both ends and around the
    operator, each label one or more ASCII letters or underscores and the
    operator one of [+ - * /]; it returns no match otherwise.  The
    function is total, nothing is raised. *)
Theorem parse_role_spec :
  (forall s l o r, parse_role s = Some (l, o, r) <-> role_shape s l o r) /\
  (forall s, parse_role s = None <-> ~ exists l o r, role_shape s l o r) /\
  parse_role (pystr "  a + b  ") = Some (pystr "a", pystr "+", pystr "b") /\
  parse_role (pystr "a + b + c") = None /\
  parse_role (pystr "a+") = None /\
  parse_role (pystr "3+b") = None /\
  parse_role (pystr "") = None.
Proof.
  split; [exact parse_role_shape|].
  split; [exact parse_role_None|].
  repeat split; vm_compute; reflexivity.
Qed.

Lemma parse_role_spec_witness :
  role_shape (pystr "a*b") (pystr "a") (pystr "*") (pystr "b").
Proof.
  apply (proj1 parse_role_spec). vm_compute. reflexivity.
Defined.

(** C9. For every expression the parser accepts, the returned operator is
    one of the four symbols [+ - * /] and both returned labels satisfy
    [is_valid_label]; hence the lookup in [operations] finds a function,
    and no call of [add_virtual_column] logs the record of the
    "unsupported operator" branch or of the "invalid operand label"
    branch: the two branches are never taken. *)
Theorem parse_role_defensive_unreachable :
  (forall s l o r,
     parse_role s = Some (l, o, r) ->
     o ∈ operator_symbols /\
     is_valid_label l = true /\ is_valid_label r = true /\
     is_Some (dict_get operations o)) /\
  (forall w df t role new_column,
     frames w !! df = Some t ->
     exists recs,
       log (add_virtual_column df role new_column w).2 = log w ++ recs /\
       Forall (fun rec => ~ defensive rec) recs).
Proof.
  split.
  - intros s l o r H. apply parse_role_parts in H as (Hl & Hr & [a ->]).
    repeat split; auto.
    + unfold operator_symbols. destruct a; simpl; set_solver.
    + rewrite operations_symbol. eauto.
  - intros w df t role new_column Hdf.
    destruct (avc_cases w df t role new_column Hdf)
      as [(rec & Hrej & ->) | [(t' & _ & ->) | (e & _ & ->)]]; simpl.
    + exists [rec]. split; [reflexivity|].
      constructor; [|constructor]. destruct Hrej; simpl; tauto.
    + exists []. rewrite app_nil_r. split; [reflexivity | constructor].
    + exists []. rewrite app_nil_r. split; [reflexivity | constructor].
Qed.

Lemma parse_role_defensive_unreachable_witness :
  pystr "/" ∈ operator_symbols /\
  is_valid_label (pystr "a") = true /\ is_valid_label (pystr "b") = true /\
  is_Some (dict_get operations (pystr "/")).
Proof.
  apply (proj1 parse_role_defensive_unreachable (pystr "a / b")).
  vm_compute. reflexivity.
Defined.

(** C2. Whenever a validation stage fails (the new column name is not a
    valid label, or the expression does not parse, or a parsed operand is
    not a valid label or names no column of the table) the call returns at
    once: it returns a reference to a new empty table, having created
    nothing else and logged one warning.  In particular the new name
    ["c1"] is rejected although the expression is valid, and ["a + z"] is
    rejected on a table without a column [z]. *)
Theorem validation_failure_returns_empty :
  (forall w df t role new_column,
     frames w !! df = Some t ->
     (is_valid_label new_column = false \/
      parse_role role = None \/
      exists l o r,
        parse_role role = Some (l, o, r) /\
        (is_valid_label l = false \/ is_valid_label r = false \/
         l ∉ columns t \/ r ∉ columns t)) ->
     exists res w' rec,
       add_virtual_column df role new_column w = (Return res, w') /\
       frames w' !! res = Some [] /\
       frames w' = frames w ++ [[]] /\
       log w' = log w ++ [rec]) /\
  add_virtual_column 0%nat (pystr "a + b") (pystr "c1") world_ab
  = (Return 1%nat, rejected world_ab (Invalid_new_column_name (pystr "c1"))) /\
  add_virtual_column 0%nat (pystr "a + z") (pystr "c") world_ab
  = (Return 1%nat, rejected world_ab (Column_not_found (pystr "z"))).
Proof.
  split; [|split; vm_compute; reflexivity].
  intros w df t role new_column Hdf Hfail.
  assert (forall l o r x y,
            is_valid_label new_column = true ->
            parse_role role = Some (l, symbol o, r) ->
            item t l = Some x -> item t r = Some y -> False) as Hpast.
  { intros l o r x y Hn Hp Hx Hy.
    destruct Hfail as [H | [H | (l' & o' & r' & Hp' & H)]];
      [congruence | congruence |].
    rewrite Hp in Hp'. injection Hp' as <- <- <-.
    destruct (parse_role_parts _ _ _ _ Hp) as (Hl & Hr & _).
    pose proof (item_has_column t l x Hx) as Hcl.
    pose proof (item_has_column t r y Hy) as Hcr.
    unfold has_column in Hcl, Hcr. rewrite bool_decide_eq_true in Hcl, Hcr.
    destruct H as [H | [H | [H | H]]]; congruence || tauto. }
  destruct (avc_cases w df t role new_column Hdf)
    as [(rec & Hrej & ->) | [(t' & Hok & _) | (e & Hbad & _)]].
  - exists (length (frames w)), (rejected w rec), rec. simpl.
    split; [reflexivity|]. split; [|split; reflexivity].
    now apply list_lookup_middle.
  - exfalso. destruct Hok as [l o r x y v t' Hn Hp Hx Hy _ _]. eauto.
  - exfalso. destruct Hbad as [l o r x y v e Hn Hp Hx Hy _ _]. eauto.
Qed.

Lemma validation_failure_returns_empty_witness :
  exists res w' rec,
    add_virtual_column 0%nat (pystr "a ** b") (pystr "c") world_ab
    = (Return res, w') /\
    frames w' !! res = Some [] /\
    frames w' = frames world_ab ++ [[]] /\
    log w' = log world_ab ++ [rec].
Proof.
  apply (proj1 validation_failure_returns_empty world_ab 0%nat table_ab).
  - reflexivity.
  - right. left. vm_compute. reflexivity.
Defined.

(** C5.  The claim, that no call raises, fails on the code: the
    assignment [df_copy[new_column] = result] is made after the [try].
    On the table [{a:[1], a:[2], b:[3]}], in which the label [a] is
    repeated, with expression ["a + a"] and new name ["c"], both operands
    are frames of two columns, their sum is a frame of two columns, and
    assigning it to the one new label raises [ValueError] to the caller:
    no table is returned and nothing is logged.  (With ["a + b"] the same
    table is rejected like any calculation error, the exception being
    raised inside the [try].) *)
Theorem assignment_after_try_raises :
  add_virtual_column 0%nat (pystr "a + a") (pystr "c") world_aab
  = (Raise ValueError, accepted world_aab table_aab) /\
  (exists e,
     add_virtual_column 0%nat (pystr "a + b") (pystr "c") world_aab
     = (Return 1%nat,
        rejected world_aab
          (Error_during_calculation (pystr "a") (pystr "+") (pystr "b") e))).
Proof.
  split; [|exists ValueError].
  - apply (avc_assignment_raises world_aab 0%nat table_aab _ _ eq_refl
             (pystr "a") Add (pystr "a")
             (Many (pystr "a") [int_column [1]; int_column [2]])
             (Many (pystr "a") [int_column [1]; int_column [2]])
             (Frame [int_column [2]; int_column [4]]));
      vm_compute; reflexivity.
  - apply (avc_reject_operation world_aab 0%nat table_aab _ _ eq_refl
             (pystr "a") Add (pystr "b")
             (Many (pystr "a") [int_column [1]; int_column [2]])
             (One (int_column [3])));
      vm_compute; reflexivity.
Qed.

(** C6. A call leaves every table that existed before it as it was, on
    success and on failure alike; in particular the input table has the
    same columns, in the same order, with the same values, and the table
    returned is another object. *)
Theorem input_table_unchanged (w : world) (df : ref) (t : DataFrame)
    (role new_column : str) :
  frames w !! df = Some t ->
  let w' := (add_virtual_column df role new_column w).2 in
  frames w' !! df = Some t /\
  (forall i t0, frames w !! i = Some t0 -> frames w' !! i = Some t0) /\
  (add_virtual_column df role new_column w).1 <> Return df.
Proof.
  intros Hdf.
  assert (df < length (frames w))%nat as Hlt by (eapply lookup_lt_Some; eauto).
  destruct (avc_cases w df t role new_column Hdf)
    as [(rec & _ & ->) | [(t' & _ & ->) | (e & _ & ->)]]; simpl.
  - repeat split.
    + now apply lookup_app_l_Some.
    + intros i t0. apply lookup_app_l_Some.
    + intros [= H]. lia.
  - repeat split.
    + now apply lookup_app_l_Some.
    + intros i t0. apply lookup_app_l_Some.
    + intros [= H]. lia.
  - repeat split.
    + now apply lookup_app_l_Some.
    + intros i t0. apply lookup_app_l_Some.
    + discriminate.
Qed.

Lemma input_table_unchanged_witness :
  let w' := (add_virtual_column 0%nat (pystr "a + b") (pystr "a") world_ab).2 in
  frames w' !! 0%nat = Some table_ab /\
  (forall i t0, frames world_ab !! i = Some t0 -> frames w' !! i = Some t0) /\
  (add_virtual_column 0%nat (pystr "a + b") (pystr "a") world_ab).1
  <> Return 0%nat.
Proof.
  apply (input_table_unchanged world_ab 0%nat table_ab). reflexivity.
Defined.



(** C1, as stated, fails when [new_column] names a column of the input:
    on the table of the example with expression ["a + b"] and new name
    ["a"] every premise holds, yet the result does not contain the input
    column [a]. *)
Lemma result_contains_input_columns_counterexample :
  is_valid_label (pystr "a") = true /\
  parse_role (pystr "a + b") = Some (pystr "a", symbol Add, pystr "b") /\
  get_column table_ab (pystr "a") = Some (int_column [1; 2; 3]) /\
  get_column table_ab (pystr "b") = Some (int_column [4; 5; 6]) /\
  series_op Add (int_column [1; 2; 3]) (int_column [4; 5; 6])
  = Return (int_column [5; 7; 9]) /\
  exists res w' t',
    add_virtual_column 0%nat (pystr "a + b") (pystr "a") world_ab
    = (Return res, w') /\
    frames w' !! res = Some t' /\
    ~ (forall k col,
         get_column table_ab k = Some col -> get_column t' k = Some col).
Proof.
  repeat split; try (vm_compute; reflexivity).
  eexists _, _, _. split; [vm_compute; reflexivity|].
  split; [reflexivity|].
  intros H. specialize (H (pystr "a") _ eq_refl). discriminate H.
Qed.

(** C1, amended.  When the labels of the table are distinct and its
    columns include the two operand
    labels, the expression parses, the new name is a valid label and the
    operation on the two operand columns succeeds, the call returns a new
    table that contains every input column whose label differs from
    [new_column], unchanged, and the column [new_column], as long as the
    operand columns, whose value at each position is the operation
    applied to the values of the two operand columns at that position.
    On the table [{a:[1,2,3], b:[4,5,6]}] with ["a + b"] and ["c"] the
    result is [{a:[1,2,3], b:[4,5,6], c:[5,7,9]}]. *)
Theorem add_virtual_column_result :
  (forall w df t role new_column l r o a b c,
     frames w !! df = Some t ->
     NoDup (columns t) ->
     is_valid_label new_column = true ->
     parse_role role = Some (l, symbol o, r) ->
     get_column t l = Some a ->
     get_column t r = Some b ->
     series_op o a b = Return c ->
     exists res w' t',
       add_virtual_column df role new_column w = (Return res, w') /\
       frames w !! res = None /\
       frames w' !! res = Some t' /\
       (forall k, k <> new_column -> get_column t' k = get_column t k) /\
       get_column t' new_column = Some c /\
       length c = length a /\ length c = length b /\
       (forall i x y,
          a !! i = Some x -> b !! i = Some y ->
          exists z, c !! i = Some z /\ scalar_op o x y = Return z)) /\
  add_virtual_column 0%nat (pystr "a + b") (pystr "c") world_ab
  = (Return 1%nat, accepted world_ab table_abc).
Proof.
  split; [|vm_compute; reflexivity].
  intros w df t role new_column l r o a b c Hdf Hnd Hn Hp Ha Hb Hc.
  exists (length (frames w)), (accepted w (set_column t new_column c)),
    (set_column t new_column c).
  destruct (series_op_length _ _ _ _ Hc) as [L1 L2].
  split; [now eapply avc_success; eauto|].
  split; [now apply lookup_ge_None|].
  split; [now apply list_lookup_middle|].
  split; [intros k Hk; now apply get_column_set_ne|].
  split; [apply get_column_set_eq|].
  split; [assumption|]. split; [assumption|].
  intros i x y. now apply series_op_lookup.
Qed.

Lemma add_virtual_column_result_witness :
  exists res w' t',
    add_virtual_column 0%nat (pystr " a*b ") (pystr "a") world_ab
    = (Return res, w') /\
    frames world_ab !! res = None /\
    frames w' !! res = Some t' /\
    (forall k, k <> pystr "a" -> get_column t' k = get_column table_ab k) /\
    get_column t' (pystr "a") = Some (int_column [4; 10; 18]) /\
    length (int_column [4; 10; 18]) = length (int_column [1; 2; 3]) /\
    length (int_column [4; 10; 18]) = length (int_column [4; 5; 6]) /\
    (forall i x y,
       int_column [1; 2; 3] !! i = Some x ->
       int_column [4; 5; 6] !! i = Some y ->
       exists z, int_column [4; 10; 18] !! i = Some z /\
                 scalar_op Mul x y = Return z).
Proof.
  apply (proj1 add_virtual_column_result world_ab 0%nat table_ab
           (pystr " a*b ") (pystr "a") (pystr "a") (pystr "b") Mul).
  - reflexivity.
  - apply (bool_decide_unpack _); vm_compute; exact I.
  - vm_compute. reflexivity.
  - vm_compute. reflexivity.
  - reflexivity.
  - reflexivity.
  - reflexivity.
Defined.

#[local] Set Warnings "-inexact-float".

(** C8. [/] is true division: on the table [{a:[1,2,3], b:[4,5,6]}] the
    expression ["a / b"] with new name ["d"] gives the column
    [d = [0.25, 0.4, 0.5]] of [float64] values, where [0.4] is the
    [float64] nearest to 4/10, [0x1.999999999999ap-2]; and on any two
    [int64] elements the result is the quotient of their conversions to
    [float64], not a rounded integer. *)
Theorem true_division_example :
  add_virtual_column 0%nat (pystr "a / b") (pystr "d") world_ab
  = (Return 1%nat, accepted world_ab table_abd) /\
  get_column table_abd (pystr "d") = Some [F64 0.25; F64 0.4; F64 0.5] /\
  (forall x y,
     scalar_op Truediv (I64 x) (I64 y)
     = Return (F64 (to_float x / to_float y))).
Proof.
  split; [vm_compute; reflexivity|].
  split; [vm_compute; reflexivity|].
  intros x y. reflexivity.
Qed.



(** * Further properties of the parser and the validator *)

(** ** Whitespace around an expression *)

Lemma whitespace_app (u v : str) :
  whitespace (u ++ v) <-> whitespace u /\ whitespace v.
Proof. unfold whitespace. apply Forall_app. Qed.

Lemma label_head_not_space (l : str) (c : N) (l' : str) :
  Forall label_char l -> l = c :: l' -> is_unicode_space c = false.
Proof.
  intros H ->. inversion H as [|? ? Hc _]; subst.
  rewrite <- space_set_spec. now apply label_not_space.
Qed.

(** A whitespace prefix of a string that reads whitespace, label, rest
    lies inside the leading whitespace. *)
Lemma strip_prefix (w : str) : forall w1 l x y,
  whitespace w -> l <> [] -> Forall label_char l ->
  w ++ x = w1 ++ l ++ y ->
  exists w1', w1 = w ++ w1' /\ x = w1' ++ l ++ y.
Proof.
  induction w as [|c w IH]; intros w1 l x y Hw Hne Hl E; simpl in E.
  - exists w1. auto.
  - inversion Hw as [|? ? Hc Hw']; subst.
    destruct w1 as [|c1 w1]; simpl in E.
    + destruct l as [|c0 l0]; [congruence|]. simpl in E.
      injection E as <- _.
      pose proof (label_head_not_space (c :: l0) c l0 Hl eq_refl). congruence.
    + injection E as <- E.
      destruct (IH w1 l x y Hw' Hne Hl E) as (w1' & -> & ->).
      exists w1'. auto.
Qed.

Lemma whitespace_rev (w : str) : whitespace w -> whitespace (rev w).
Proof. unfold whitespace. intros H. now apply Forall_rev. Qed.

(** The same at the end of the string. *)
Lemma strip_suffix (w' w4 r x y : str) :
  whitespace w' -> r <> [] -> Forall label_char r ->
  x ++ w' = y ++ r ++ w4 ->
  exists w4', w4 = w4' ++ w' /\ x = y ++ r ++ w4'.
Proof.
  intros Hw Hne Hr E.
  apply (f_equal (@rev N)) in E. rewrite !rev_app_distr in E.
  rewrite <- app_assoc in E.
  destruct (strip_prefix (rev w') (rev w4) (rev r) (rev x) (rev y))
    as (u & E1 & E2); auto using whitespace_rev.
  - intros H. apply (f_equal (@rev N)) in H. rewrite rev_involutive in H.
    simpl in H. congruence.
  - now apply Forall_rev.
  - exists (rev u). split.
    + apply (f_equal (@rev N)) in E1.
      rewrite rev_app_distr, !rev_involutive in E1. exact E1.
    + apply (f_equal (@rev N)) in E2.
      rewrite !rev_app_distr, !rev_involutive in E2.
      rewrite E2. now rewrite <- app_assoc.
Qed.

Lemma role_shape_pad (w w' s l o r : str) :
  whitespace w -> whitespace w' ->
  role_shape s l o r -> role_shape (w ++ s ++ w') l o r.
Proof.
  intros Hw Hw' (w1 & w2 & w3 & w4 & c & -> & -> & Hc & H1 & H2 & H3 & H4 & Hl & Hr).
  exists (w ++ w1), w2, w3, (w4 ++ w'), c.
  split; [now rewrite <- !app_assoc|].
  repeat split; auto; try apply whitespace_app; auto; apply Hl || apply Hr.
Qed.

Lemma role_shape_unpad (w w' s l o r : str) :
  whitespace w -> whitespace w' ->
  role_shape (w ++ s ++ w') l o r -> role_shape s l o r.
Proof.
  intros Hw Hw' (w1 & w2 & w3 & w4 & c & E & -> & Hc & H1 & H2 & H3 & H4 & Hl & Hr).
  destruct Hl as [Hl1 Hl], Hr as [Hr1 Hr].
  apply strip_prefix in E as (w1' & -> & E); auto.
  apply whitespace_app in H1 as [_ H1].
  assert (s ++ w' = (w1' ++ l ++ w2 ++ [c] ++ w3) ++ r ++ w4) as E'
    by (rewrite E; now rewrite <- !app_assoc).
  apply strip_suffix in E' as (w4' & -> & ->); auto.
  apply whitespace_app in H4 as [H4 _].
  exists w1', w2, w3, w4', c.
  split; [now rewrite <- !app_assoc|].
  repeat split; auto.
Qed.

(** X1. Whitespace before and after an expression never changes what the
    parser returns, match or no match. *)
Theorem parse_role_padding (w w' s : str) :
  whitespace w -> whitespace w' ->
  parse_role (w ++ s ++ w') = parse_role s.
Proof.
  intros Hw Hw'.
  destruct (parse_role s) as [[[l o] r]|] eqn:H.
  - apply parse_role_shape. apply role_shape_pad; auto.
    now apply parse_role_shape.
  - apply parse_role_None. intros (l & o & r & Hs).
    apply role_shape_unpad in Hs; auto.
    apply parse_role_shape in Hs. congruence.
Qed.

Lemma parse_role_padding_witness :
  parse_role (pystr "  " ++ pystr "a+b + c" ++ [9; 10]%N)
  = parse_role (pystr "a+b + c").
Proof.
  apply parse_role_padding; repeat constructor.
Defined.

(** ** What an accepted expression is made of *)

Lemma strip_space_whitespace (w : str) : whitespace w -> strip_space w = [].
Proof.
  unfold strip_space. induction 1 as [|c w Hc _ IH]; simpl; [reflexivity|].
  now rewrite Hc.
Qed.

Lemma strip_space_keeps (s : str) :
  Forall (fun c => is_unicode_space c = false) s -> strip_space s = s.
Proof.
  unfold strip_space. induction 1 as [|c s Hc _ IH]; simpl; [reflexivity|].
  rewrite Hc. simpl. now rewrite IH.
Qed.

Lemma strip_space_app (u v : str) :
  strip_space (u ++ v) = strip_space u ++ strip_space v.
Proof. apply List.filter_app. Qed.

Lemma label_no_space (l : str) :
  Forall label_char l -> Forall (fun c => is_unicode_space c = false) l.
Proof.
  intros H. eapply Forall_impl; [exact H|]. intros c Hc.
  rewrite <- space_set_spec. now apply label_not_space.
Qed.

(** X2. The triple the parser returns is the expression with its
    whitespace deleted, and the expression without its whitespace parses
    to the same triple. *)
Theorem parse_role_strip_space (s l o r : str) :
  parse_role s = Some (l, o, r) ->
  strip_space s = l ++ o ++ r /\
  parse_role (strip_space s) = Some (l, o, r).
Proof.
  intros H. apply parse_role_shape in H as Hs.
  destruct Hs as (w1 & w2 & w3 & w4 & c & -> & -> & Hc & H1 & H2 & H3 & H4 & Hl & Hr).
  assert (strip_space (w1 ++ l ++ w2 ++ [c] ++ w3 ++ r ++ w4) = l ++ [c] ++ r)
    as E.
  { rewrite !strip_space_app.
    rewrite (strip_space_whitespace w1), (strip_space_whitespace w2),
      (strip_space_whitespace w3), (strip_space_whitespace w4) by assumption.
    rewrite (strip_space_keeps l) by (apply label_no_space, Hl).
    rewrite (strip_space_keeps r) by (apply label_no_space, Hr).
    rewrite (strip_space_keeps [c]).
    - simpl. now rewrite app_nil_r.
    - constructor; [|constructor].
      rewrite <- space_set_spec. now apply operator_not_space. }
  split; [exact E|]. rewrite E.
  apply parse_role_shape. exists [], [], [], [], c.
  rewrite app_nil_r. repeat split; auto; try constructor; apply Hl || apply Hr.
Qed.

Lemma parse_role_strip_space_witness :
  strip_space (pystr " a_b  * c ") = pystr "a_b" ++ pystr "*" ++ pystr "c" /\
  parse_role (strip_space (pystr " a_b  * c "))
  = Some (pystr "a_b", pystr "*", pystr "c").
Proof.
  apply parse_role_strip_space. vm_compute. reflexivity.
Defined.

Lemma operator_count_app (u v : str) :
  operator_count (u ++ v) = (operator_count u + operator_count v)%nat.
Proof. unfold operator_count. now rewrite List.filter_app, length_app. Qed.

Lemma operator_count_none (s : str) :
  Forall (fun c => in_set operator_set c = false) s -> operator_count s = 0%nat.
Proof.
  unfold operator_count.
  induction 1 as [|c s Hc _ IH]; cbn [List.filter]; [reflexivity|].
  now rewrite Hc.
Qed.

Lemma label_char_not_operator (c : N) :
  label_char c -> in_set operator_set c = false.
Proof.
  intros H. apply not_true_is_false. rewrite operator_set_spec.
  revert H. unfold label_char, operator_char. lia.
Qed.

Lemma space_not_operator (c : N) :
  is_unicode_space c = true -> in_set operator_set c = false.
Proof.
  intros H. apply not_true_is_false. rewrite operator_set_spec.
  revert H. unfold is_unicode_space, operator_char. lia.
Qed.

(** X3. An expression the parser accepts holds exactly one operator
    character: a string with none, or with two or more, is rejected. *)
Theorem parse_role_one_operator (s : str) :
  operator_count s <> 1%nat -> parse_role s = None.
Proof.
  intros Hn. apply parse_role_None. intros (l & o & r & Hs).
  destruct Hs as (w1 & w2 & w3 & w4 & c & -> & -> & Hc & H1 & H2 & H3 & H4 & Hl & Hr).
  apply Hn. rewrite !operator_count_app.
  assert (forall w, whitespace w -> operator_count w = 0%nat) as Hws.
  { intros w Hw. apply operator_count_none.
    eapply Forall_impl; [exact Hw|]. apply space_not_operator. }
  assert (forall x, label x -> operator_count x = 0%nat) as Hlab.
  { intros x [_ Hx]. apply operator_count_none.
    eapply Forall_impl; [exact Hx|]. apply label_char_not_operator. }
  rewrite (Hws w1), (Hws w2), (Hws w3), (Hws w4), (Hlab l), (Hlab r)
    by assumption.
  unfold operator_count. cbn [List.filter].
  now rewrite (proj2 (operator_set_spec c) Hc).
Qed.

Lemma parse_role_one_operator_witness : parse_role (pystr "a ** b") = None.
Proof.
  apply parse_role_one_operator. vm_compute. lia.
Defined.

(** ** Labels *)

(** X4. Gluing two non-empty strings gives a valid label exactly when
    both are valid labels: valid labels are closed under concatenation,
    and every non-empty piece of a valid label is one. *)
Theorem is_valid_label_app (a b : str) :
  a <> [] -> b <> [] ->
  is_valid_label (a ++ b) = is_valid_label a && is_valid_label b.
Proof.
  intros Ha Hb. apply eq_true_iff_eq.
  rewrite andb_true_iff, !is_valid_label_label. unfold label.
  rewrite Forall_app. split.
  - intros [_ [H1 H2]]. auto.
  - intros [[_ H1] [_ H2]]. split; [|auto].
    destruct a; [congruence | discriminate].
Qed.

Lemma is_valid_label_app_witness :
  is_valid_label (pystr "total_" ++ pystr "x")
  = is_valid_label (pystr "total_") && is_valid_label (pystr "x").
Proof.
  apply is_valid_label_app; discriminate.
Defined.

(** X5. A final newline is never part of a label, although [$] alone
    would let it pass: the validator rejects every string that ends in a
    newline, while the parser, whose pattern ends in [\s*], ignores
    it. *)
Theorem trailing_newline (s : str) :
  is_valid_label (s ++ [10%N]) = false /\
  parse_role (s ++ [10%N]) = parse_role s.
Proof.
  split.
  - apply is_valid_label_false. intros [_ H].
    apply Forall_app in H as [_ H]. inversion H as [|? ? Hc _]; subst.
    unfold label_char in Hc. lia.
  - assert (whitespace [10%N]) as Hnl by (repeat constructor).
    assert (whitespace []) as Hnil by constructor.
    destruct (parse_role s) as [[[l o] r]|] eqn:H.
    + apply parse_role_shape.
      apply (role_shape_pad [] [10%N] s); auto. now apply parse_role_shape.
    + apply parse_role_None. intros (l & o & r & Hs).
      apply (role_shape_unpad [] [10%N] s) in Hs; auto.
      apply parse_role_shape in Hs. congruence.
Qed.

(** * Further properties of the evaluator *)

Lemma rejection_run (w : world) (df : ref) (t : DataFrame)
    (role new_column : str) (rec : record) :
  frames w !! df = Some t ->
  rejection t role new_column rec ->
  add_virtual_column df role new_column w
  = (Return (length (frames w)), rejected w rec).
Proof.
  intros Hdf [H | H1 H2 | l o r H1 H2 H3 | l o r H1 H2 H3 H4
              | l o r x y e H1 H2 Hx Hy He].
  - now apply avc_reject_name.
  - now apply avc_reject_format.
  - eapply avc_reject_left; eauto.
  - eapply avc_reject_right; eauto.
  - eapply avc_reject_operation; eauto.
Qed.

Lemma success_run (w : world) (df : ref) (t : DataFrame)
    (role new_column : str) (t' : DataFrame) :
  frames w !! df = Some t ->
  success t role new_column t' ->
  add_virtual_column df role new_column w
  = (Return (length (frames w)), accepted w t').
Proof.
  intros Hdf [l o r x y v t'' H1 H2 Hx Hy Hv Ht]. eapply avc_assigned; eauto.
Qed.

(** With distinct labels the assignment never raises. *)
Lemma assignment_raises_distinct (t : DataFrame) (role new_column : str)
    (e : exn) :
  NoDup (columns t) -> ~ assignment_raises t role new_column e.
Proof.
  intros Hnd [l o r x y v e' H1 H2 Hx Hy Hv Ht].
  apply item_distinct_inv in Hx as (a & -> & Ha); [|assumption].
  apply item_distinct_inv in Hy as (b & -> & Hb); [|assumption].
  simpl in Hv. destruct (series_op o a b) as [c|]; [|discriminate].
  injection Hv as <-. discriminate.
Qed.

Lemma NoDup_set_column (t : DataFrame) (key : str) (col : Series) :
  NoDup (columns t) -> NoDup (columns (set_column t key col)).
Proof.
  intros Hnd. destruct (decide (key ∈ columns t)) as [Hin | Hout].
  - rewrite set_column_existing by assumption. now rewrite columns_set_existing.
  - rewrite set_column_new by assumption.
    unfold columns. rewrite map_app. simpl.
    apply NoDup_app. split; [exact Hnd|]. split; [|apply NoDup_singleton].
    intros x Hx Hx'. apply list_elem_of_singleton in Hx'. now subst.
Qed.

Lemma columns_set_column (t : DataFrame) (key : str) (col : Series) :
  key ∈ columns (set_column t key col).
Proof.
  pose proof (get_column_set_eq t key col) as H.
  assert (has_column (set_column t key col) key = true) as Hc
    by (apply has_column_get; eauto).
  unfold has_column in Hc. now rewrite bool_decide_eq_true in Hc.
Qed.

(** X6. On a table with distinct labels the call always returns a table,
    and the empty table is a sound failure signal: a call returns the
    empty table exactly when it logged a warning, and the table of a
    success is never empty, since it holds the new column even when the
    input has no rows.  Either way the call creates one table and nothing
    else. *)
Theorem empty_result_iff_warning (w : world) (df : ref) (t : DataFrame)
    (role new_column : str) :
  frames w !! df = Some t ->
  NoDup (columns t) ->
  exists res w' t',
    add_virtual_column df role new_column w = (Return res, w') /\
    frames w' = frames w ++ [t'] /\
    frames w' !! res = Some t' /\
    (t' = [] <-> log w' <> log w) /\
    (t' <> [] -> new_column ∈ columns t').
Proof.
  intros Hdf Hnd.
  destruct (avc_cases_distinct w df t role new_column Hdf Hnd)
    as [(rec & ->) | (l & o & r & a & b & c & _ & _ & _ & _ & _ & ->)].
  - exists (length (frames w)), (rejected w rec), []. simpl.
    split; [reflexivity|]. split; [reflexivity|].
    split; [now apply list_lookup_middle|].
    split; [|congruence].
    split; [|reflexivity]. intros _ H.
    apply (f_equal length) in H. rewrite length_app in H. simpl in H. lia.
  - exists (length (frames w)), (accepted w (set_column t new_column c)),
      (set_column t new_column c). simpl.
    split; [reflexivity|]. split; [reflexivity|].
    split; [now apply list_lookup_middle|].
    split.
    + split; [|congruence]. intros H.
      now apply set_column_nonempty in H.
    + intros _. apply columns_set_column.
Qed.

Lemma empty_result_iff_warning_witness :
  exists res w' t',
    add_virtual_column 0%nat (pystr "a - a") (pystr "z")
      {| frames := [[(pystr "a", [])]]; log := [] |}
    = (Return res, w') /\
    frames w' = [[(pystr "a", [])]] ++ [t'] /\
    frames w' !! res = Some t' /\
    (t' = [] <-> log w' <> []) /\
    (t' <> [] -> pystr "z" ∈ columns t').
Proof.
  apply (empty_result_iff_warning
           {| frames := [[(pystr "a", [])]]; log := [] |} 0%nat
           [(pystr "a", [])]).
  - reflexivity.
  - apply (bool_decide_unpack _); vm_compute; exact I.
Defined.

(** X7. On a table with distinct labels, calling twice with the same
    arguments gives two distinct new
    tables with the same contents; the input is still what it was, and
    the second call logs what the first one logged. *)
Theorem repeated_call (w : world) (df : ref) (t : DataFrame)
    (role new_column : str) :
  frames w !! df = Some t ->
  NoDup (columns t) ->
  let first := add_virtual_column df role new_column w in
  let second := add_virtual_column df role new_column first.2 in
  exists t' recs,
    first.1 = Return (length (frames w)) /\
    second.1 = Return (S (length (frames w))) /\
    frames second.2 = frames w ++ [t'; t'] /\
    log first.2 = log w ++ recs /\
    log second.2 = log w ++ recs ++ recs.
Proof.
  intros Hdf Hnd first second. subst first second.
  destruct (avc_cases w df t role new_column Hdf)
    as [(rec & Hrej & ->) | [(t' & Hok & ->) | (e & Hbad & _)]];
    cbn [fst snd];
    [| | now apply assignment_raises_distinct in Hbad].
  - assert (frames (rejected w rec) !! df = Some t) as Hdf'
      by (simpl; now apply lookup_app_l_Some).
    rewrite (rejection_run _ _ _ _ _ _ Hdf' Hrej).
    exists [], [rec]. simpl. rewrite length_app, Nat.add_1_r.
    rewrite <- !app_assoc. auto.
  - assert (frames (accepted w t') !! df = Some t) as Hdf'
      by (simpl; now apply lookup_app_l_Some).
    rewrite (success_run _ _ _ _ _ _ Hdf' Hok).
    exists t', []. simpl. rewrite length_app, Nat.add_1_r.
    rewrite <- !app_assoc, !app_nil_r. auto.
Qed.

Lemma repeated_call_witness :
  let first := add_virtual_column 0%nat (pystr "a + b") (pystr "c") world_ab in
  let second := add_virtual_column 0%nat (pystr "a + b") (pystr "c") first.2 in
  exists t' recs,
    first.1 = Return (length (frames world_ab)) /\
    second.1 = Return (S (length (frames world_ab))) /\
    frames second.2 = frames world_ab ++ [t'; t'] /\
    log first.2 = log world_ab ++ recs /\
    log second.2 = log world_ab ++ recs ++ recs.
Proof.
  apply (repeated_call world_ab 0%nat table_ab).
  - reflexivity.
  - apply (bool_decide_unpack _); vm_compute; exact I.
Defined.

(** X8. Calls chain on tables with distinct labels: after a success the
    new column can itself be an
    operand.  A second call on the returned table, whose expression
    combines the new column with another column of the input, succeeds
    whenever its operation does, and returns the table with both added
    columns. *)
Theorem new_column_as_operand (w : world) (df : ref) (t : DataFrame)
    (role new_column l r : str) (o : arith) (a b c : Series)
    (role2 new2 r2 : str) (o2 : arith) (b2 c2 : Series) :
  frames w !! df = Some t ->
  NoDup (columns t) ->
  is_valid_label new_column = true ->
  parse_role role = Some (l, symbol o, r) ->
  get_column t l = Some a ->
  get_column t r = Some b ->
  series_op o a b = Return c ->
  is_valid_label new2 = true ->
  parse_role role2 = Some (new_column, symbol o2, r2) ->
  r2 <> new_column ->
  get_column t r2 = Some b2 ->
  series_op o2 c b2 = Return c2 ->
  let first := add_virtual_column df role new_column w in
  exists res,
    first.1 = Return res /\
    add_virtual_column res role2 new2 first.2
    = (Return (S res),
       accepted first.2 (set_column (set_column t new_column c) new2 c2)).
Proof.
  intros Hdf Hnd Hn Hp Ha Hb Hc Hn2 Hp2 Hne Hb2 Hc2 first. subst first.
  rewrite (avc_success w df t role new_column Hdf Hnd l o r a b c)
    by assumption.
  exists (length (frames w)). cbn [fst snd]. split; [reflexivity|].
  assert (frames (accepted w (set_column t new_column c)) !! length (frames w)
          = Some (set_column t new_column c)) as Hres
    by (simpl; now apply list_lookup_middle).
  rewrite (avc_success _ _ _ role2 new2 Hres
             (NoDup_set_column t new_column c Hnd) new_column o2 r2 c b2 c2);
    auto.
  - simpl. now rewrite length_app, Nat.add_1_r.
  - apply get_column_set_eq.
  - now rewrite get_column_set_ne.
Qed.

Lemma new_column_as_operand_witness :
  let first := add_virtual_column 0%nat (pystr "a + b") (pystr "c") world_ab in
  exists res,
    first.1 = Return res /\
    add_virtual_column res (pystr "c * a") (pystr "d") first.2
    = (Return (S res),
       accepted first.2
         (set_column (set_column table_ab (pystr "c") (int_column [5; 7; 9]))
            (pystr "d") (int_column [5; 14; 27]))).
Proof.
  apply (new_column_as_operand world_ab 0%nat table_ab (pystr "a + b")
           (pystr "c") (pystr "a") (pystr "b") Add
           (int_column [1; 2; 3]) (int_column [4; 5; 6]) (int_column [5; 7; 9])
           (pystr "c * a") (pystr "d") (pystr "a") Mul
           (int_column [1; 2; 3]) (int_column [5; 14; 27]));
    try reflexivity; try (vm_compute; reflexivity);
    apply (bool_decide_unpack _); vm_compute; exact I.
Defined.

Lemma get_column_elem (t : DataFrame) (key : str) (col : Series) :
  get_column t key = Some col -> (key, col) ∈ t.
Proof.
  induction t as [|[k c] t IH]; simpl; [discriminate|].
  destruct (decide (k = key)) as [->|_].
  - intros [= ->]. apply elem_of_cons. auto.
  - intros H. apply elem_of_cons. auto.
Qed.

(** X9. A success keeps the table well formed: when the input has
    distinct labels and columns of one length [n], so has the result, the
    new column included. *)
Theorem success_keeps_rectangular (w : world) (df : ref) (t : DataFrame)
    (n : nat) (role new_column l r : str) (o : arith) (a b c : Series) :
  frames w !! df = Some t ->
  rectangular n t ->
  is_valid_label new_column = true ->
  parse_role role = Some (l, symbol o, r) ->
  get_column t l = Some a ->
  get_column t r = Some b ->
  series_op o a b = Return c ->
  exists res w' t',
    add_virtual_column df role new_column w = (Return res, w') /\
    frames w' !! res = Some t' /\
    rectangular n t'.
Proof.
  intros Hdf [Hnd Hlen] Hn Hp Ha Hb Hc.
  exists (length (frames w)), (accepted w (set_column t new_column c)),
    (set_column t new_column c).
  split; [now eapply avc_success; eauto|].
  split; [simpl; now apply list_lookup_middle|].
  assert (length c = n) as Lc.
  { destruct (series_op_length _ _ _ _ Hc) as [-> _].
    apply get_column_elem in Ha. rewrite Forall_forall in Hlen.
    apply (Hlen _ Ha). }
  destruct (decide (new_column ∈ columns t)) as [Hin | Hout].
  - rewrite set_column_existing by assumption. split.
    + now rewrite columns_set_existing.
    + apply Forall_map. eapply Forall_impl; [exact Hlen|].
      intros [k col] Hk. simpl in *. now destruct (decide (k = new_column)).
  - rewrite set_column_new by assumption. split.
    + unfold columns. rewrite map_app. simpl.
      apply NoDup_app. split; [exact Hnd|]. split; [|apply NoDup_singleton].
      intros x Hx Hx'. apply list_elem_of_singleton in Hx'. now subst.
    + apply Forall_app. split; [exact Hlen|]. now repeat constructor.
Qed.

Lemma success_keeps_rectangular_witness :
  exists res w' t',
    add_virtual_column 0%nat (pystr "a - b") (pystr "b") world_ab
    = (Return res, w') /\
    frames w' !! res = Some t' /\
    rectangular 3 t'.
Proof.
  apply (success_keeps_rectangular world_ab 0%nat table_ab 3 (pystr "a - b")
           (pystr "b") (pystr "a") (pystr "b") Sub
           (int_column [1; 2; 3]) (int_column [4; 5; 6])
           (int_column [-3; -3; -3])%Z);
    try reflexivity; try (vm_compute; reflexivity).
  split; apply (bool_decide_unpack _); vm_compute; exact I.
Defined.

(** X10. The first stage that fails decides the warning: an invalid new
    name is reported whatever the expression is; with a valid name, an
    expression that does not parse is reported; with both in order, a
    missing left operand is reported whatever the right operand is, and a
    missing right operand only when the left one is a column. *)
Theorem first_failure_decides (w : world) (df : ref) (t : DataFrame)
    (role new_column : str) :
  frames w !! df = Some t ->
  let w' := (add_virtual_column df role new_column w).2 in
  (is_valid_label new_column = false ->
   log w' = log w ++ [Invalid_new_column_name new_column]) /\
  (is_valid_label new_column = true -> parse_role role = None ->
   log w' = log w ++ [Invalid_expression_format role]) /\
  (forall l o r,
     is_valid_label new_column = true -> parse_role role = Some (l, o, r) ->
     l ∉ columns t ->
     log w' = log w ++ [Column_not_found l]) /\
  (forall l o r,
     is_valid_label new_column = true -> parse_role role = Some (l, o, r) ->
     l ∈ columns t -> r ∉ columns t ->
     log w' = log w ++ [Column_not_found r]).
Proof.
  intros Hdf w'. subst w'. repeat split.
  - intros H. now rewrite avc_reject_name.
  - intros H1 H2. now rewrite avc_reject_format.
  - intros l o r H1 H2 H3.
    erewrite avc_reject_left; eauto.
    unfold has_column. now apply bool_decide_eq_false_2.
  - intros l o r H1 H2 H3 H4.
    erewrite avc_reject_right; eauto; unfold has_column.
    + now apply bool_decide_eq_true_2.
    + now apply bool_decide_eq_false_2.
Qed.

Lemma first_failure_decides_witness :
  let w' := (add_virtual_column 0%nat (pystr "y + z") (pystr "c") world_ab).2 in
  log w' = log world_ab ++ [Column_not_found (pystr "y")].
Proof.
  apply (proj1 (proj2 (proj2
           (first_failure_decides world_ab 0%nat table_ab (pystr "y + z")
              (pystr "c") eq_refl))) (pystr "y") (pystr "+") (pystr "z")).
  - vm_compute. reflexivity.
  - vm_compute. reflexivity.
  - apply (bool_decide_unpack _). vm_compute. exact I.
Defined.
